(** * Verification of the cluster view models of phy
    (src/phy/cluster/view_models.py).

    Covered: the trace interval setter [TraceViewModel.interval], the
    correlogram bin computation [CorrelogramViewModel.change_bins] and
    [_oddify], the correlogram normalization [_normalize] with its setter
    and toggle, and the feature grid [_dimensions].

    Numbers that are Python floats are modelled as exact rationals [Q];
    the concrete inputs used below are away from binary64 rounding
    boundaries, so Python gives the same results there. *)

From Stdlib Require Import ZArith QArith Qround Qminmax Qabs Lia String List Sorted.
From stdpp Require Import base gmap list.

Import ListNotations.
Open Scope Z_scope.

(** ** Python helpers *)

(** [int(x)] on a float: truncation toward zero. *)
Definition py_int (q : Q) : Z :=
  if Qle_bool 0 q then Qfloor q else - Qfloor (- q).

(** [np.clip(a, lo, hi)] = [minimum(maximum(a, lo), hi)]. *)
Definition np_clip (a lo hi : Z) : Z := Z.min (Z.max a lo) hi.

Definition np_clipQ (a lo hi : Q) : Q := Qmin (Qmax a lo) hi.

(** ** TraceViewModel.interval (setter) *)

(** The argument passed to the setter, as far as the setter inspects it:
    a tuple, a list, or some other (scalar) value. *)
Inductive pyarg :=
  | PyTuple (xs : list Q)
  | PyList (xs : list Q)
  | PyScalar (x : Q).

(** Outcome of the setter: the stored [_interval], or the exception it
    raises ([ValueError] on a malformed argument, [AssertionError] when
    the final assertion fails). *)
Inductive interval_result :=
  | IntervalOk (start end_ : Z)
  | IntervalValueError
  | IntervalAssertionError.

(** The clamping part of the setter, after [int()] conversion;
    [n = self.model.traces.shape[0]]. *)
Definition clamp_interval (n start end_ : Z) : interval_result :=
  let '(start, end_) :=
    if start <? 0 then (0, end_ + (- start))
    else if n <=? end_ then (start - (end_ - n), n)
    else (start, end_) in
  let start := np_clip start 0 end_ in
  let end_ := np_clip end_ start n in
  if (0 <=? start) && (start <? end_) && (end_ <=? n)
  then IntervalOk start end_
  else IntervalAssertionError.

Definition set_interval (n : Z) (value : pyarg) : interval_result :=
  match value with
  | PyTuple [a; b] => clamp_interval n (py_int a) (py_int b)
  | _ => IntervalValueError
  end.

(** The shape test of the setter:
    [isinstance(value, tuple) and len(value) == 2]. *)
Definition is_pair_tuple (value : pyarg) : bool :=
  match value with
  | PyTuple xs => Nat.eqb (length xs) 2
  | _ => false
  end.

(** ** Correlograms *)

(** [_oddify]: Python's [%] is the floored modulo, as [Z.modulo]. *)
Definition _oddify (x : Z) : Z := if x mod 2 =? 1 then x else x + 1.

(** [CorrelogramViewModel.change_bins]: the new [(binsize, winsize_bins)]
    for sample rate [sr], bin [bin] and half width [half_width] in ms.
    The final [self.select(self.cluster_ids)] re-runs [on_select] below. *)
Definition change_bins (sr bin half_width : Q) : Z * Z :=
  let bin := np_clipQ (bin * (1 # 1000)) (1 # 1000) 1000000 in
  let binsize := py_int (sr * bin) in
  let half_width := np_clipQ (half_width * (1 # 1000)) (1 # 1000) 1000000 in
  let winsize_bins := 2 * py_int (half_width / bin) + 1 in
  (binsize, winsize_bins).

(** A correlogram array of shape [(n_clusters, n_clusters, n_bins)]. *)
Abbreviation tensor := (list (list (list Q))).

(** [ndarray.max()] of a non-empty one-dimensional array. *)
Definition maxl (l : list Q) : Q := fold_left Qmax (tl l) (hd 0%Q l).

(** [ccgs.max()] over the whole array. *)
Definition tensor_max (t : tensor) : Q := maxl (concat (concat t)).

(** [CorrelogramViewModel._normalize]; [None] is Python's [None], returned
    when the mode matches neither branch. *)
Definition _normalize (normalization : string) (ccgs : tensor) : option tensor :=
  match ccgs with
  | [] => Some ccgs
  | _ =>
    if String.eqb normalization "equal" then
      let c := (1 / Qmax 1 (tensor_max ccgs))%Q in
      Some (map (map (map (fun x => x * c)%Q)) ccgs)
    else if String.eqb normalization "independent" then
      Some (map (map (fun lags =>
              let c := (1 / Qmax 1 (maxl lags))%Q in
              map (fun x => x * c)%Q lags)) ccgs)
    else None
  end.

(** The state of a [CorrelogramViewModel] the correlogram code touches:
    [_normalization], the cached symmetrized [_ccgs] ([None] before the
    first selection), the array pushed to the view, the parameters, and
    the number of calls made so far to the histogram kernel. *)
Record ccg_state := CcgState {
  normalization : string;
  ccgs : option tensor;
  view_correlograms : option tensor;
  binsize : Z;
  winsize_bins : Z;
  kernel_calls : nat
}.

(** A method either returns with a new state or raises, leaving the
    state it had reached. *)
Inductive outcome :=
  | Returned (s : ccg_state)
  | Raised (s : ccg_state).

(** The [normalization] setter. [len(None)] raises when nothing is
    cached yet. *)
Definition set_normalization (value : string) (s : ccg_state) : outcome :=
  let s1 := CcgState value (ccgs s) (view_correlograms s) (binsize s)
                     (winsize_bins s) (kernel_calls s) in
  match ccgs s with
  | None => Raised s1
  | Some t =>
    Returned (CcgState value (ccgs s) (_normalize value t) (binsize s)
                       (winsize_bins s) (kernel_calls s))
  end.

Definition toggle_normalization (s : ccg_state) : outcome :=
  set_normalization
    (if String.eqb (normalization s) "independent" then "equal"
     else "independent") s.

Section OnSelect.
(** The histogram kernel [correlograms] and [_symmetrize_correlograms]
    live in [phy.stats.ccg]; here they are parameters. The kernel is
    given the bin size and the odd window size. *)
Variable correlograms : Z -> Z -> tensor.
Variable _symmetrize_correlograms : tensor -> tensor.

(** [CorrelogramViewModel.on_select], correlogram part. *)
Definition on_select (s : ccg_state) : ccg_state :=
  let raw := correlograms (binsize s) (_oddify (winsize_bins s)) in
  let c := _symmetrize_correlograms raw in
  CcgState (normalization s) (Some c) (_normalize (normalization s) c)
           (binsize s) (winsize_bins s) (S (kernel_calls s)).
End OnSelect.

(** ** Feature grid: [_dimensions] *)

(** A plot dimension: ['time'] or a [(channel, feature)] pair. *)
Inductive dim :=
  | DTime
  | DChan (channel : Z) (feature : nat).

Definition border_step (x_channels y_channels : list Z)
    (acc : gmap (nat * nat) dim * gmap (nat * nat) dim) (i : nat)
    : gmap (nat * nat) dim * gmap (nat * nat) dim :=
  let '(x_dim, y_dim) := acc in
  (<[(i, 0%nat) := DTime]> (<[(0%nat, i) := DTime]> x_dim),
   <[(i, 0%nat) := DChan (y_channels !!! (i - 1)%nat) 0]>
     (<[(0%nat, i) := DChan (x_channels !!! (i - 1)%nat) 0]> y_dim)).

Definition inner_step (x_channels y_channels : list Z) (i : nat)
    (acc : gmap (nat * nat) dim * gmap (nat * nat) dim) (j : nat)
    : gmap (nat * nat) dim * gmap (nat * nat) dim :=
  let '(x_dim, y_dim) := acc in
  (<[(i, j) := DChan (x_channels !!! (i - 1)%nat) (j - 1)]> x_dim,
   <[(i, j) := DChan (y_channels !!! (j - 1)%nat) (i - 1)]> y_dim).

(** [_dimensions(x_channels, y_channels)]; [None] when the assertion
    [len(y_channels) == n] fails. *)
Definition _dimensions (x_channels y_channels : list Z)
    : option (gmap (nat * nat) dim * gmap (nat * nat) dim) :=
  let n := length x_channels in
  if negb (Nat.eqb (length y_channels) n) then None else
  let x_dim := <[(0%nat, 0%nat) := DTime]> ∅ in
  let y_dim := <[(0%nat, 0%nat) := DTime]> ∅ in
  let acc := fold_left (border_step x_channels y_channels) (seq 1 n)
                       (x_dim, y_dim) in
  let acc := fold_left (fun acc i =>
                 fold_left (inner_step x_channels y_channels i) (seq 1 n) acc)
               (seq 1 n) acc in
  Some acc.

(** ** Trace navigation and default window *)

(** [TraceViewModel.move]: [amount = int(amount)], then the setter on the
    shifted current interval [(start, end)]. *)
Definition move (n : Z) (interval : Z * Z) (amount : Q) : interval_result :=
  let amount := py_int amount in
  let '(start, end_) := interval in
  set_interval n (PyTuple [inject_Z (start + amount); inject_Z (end_ + amount)]).

(** [TraceViewModel.move_right]: [self.move(int(+(end - start) * fraction))]. *)
Definition move_right (n : Z) (interval : Z * Z) (fraction : Q) : interval_result :=
  let '(start, end_) := interval in
  move n interval (inject_Z (py_int (inject_Z (end_ - start) * fraction))).

(** [TraceViewModel.move_left]: [self.move(int(-(end - start) * fraction))]. *)
Definition move_left (n : Z) (interval : Z * Z) (fraction : Q) : interval_result :=
  let '(start, end_) := interval in
  move n interval (inject_Z (py_int (- inject_Z (end_ - start) * fraction))).

(** [TraceViewModel.on_select], interval part: [half_size] from
    [interval_size] and the sample rate, centred on the sample of the
    first selected spike ([first_sample]) or on [half_size]. *)
Definition trace_default_interval (n : Z) (interval_size sample_rate : Q)
    (first_sample : option Z) : interval_result :=
  let half_size := py_int (interval_size * sample_rate / 2) in
  let sample := match first_sample with
                | Some s => s
                | None => half_size
                end in
  set_interval n (PyTuple [inject_Z (sample - half_size);
                           inject_Z (sample + half_size)]).

(** ** Spikes shown in the trace window ([TraceViewModel._load_traces]) *)

(** [numpy.searchsorted(a, v)] (side ['left']) on a sorted array: the first
    index [i] with [v <= a[i]], or [len(a)]. *)
Fixpoint searchsorted (a : list Z) (v : Z) : nat :=
  match a with
  | [] => 0%nat
  | x :: a' => if v <=? x then 0%nat else S (searchsorted a' v)
  end.

(** [spike_samples = self.model.spike_samples[spikes]];
    [a, b = spike_samples.searchsorted(interval)]; [spikes = spikes[a:b]].
    [model_spike_samples] maps a spike id to its sample. *)
Definition spikes_in_interval (model_spike_samples : Z -> Z) (spikes : list Z)
    (start end_ : Z) : list Z :=
  let spike_samples := map model_spike_samples spikes in
  let a := searchsorted spike_samples start in
  let b := searchsorted spike_samples end_ in
  skipn a (firstn b spikes).

(** [spike_samples = self.model.spike_samples[spikes] - start]: the kept
    spikes' samples relative to the start of the interval. *)
Definition relative_spike_samples (model_spike_samples : Z -> Z) (spikes : list Z)
    (start end_ : Z) : list Z :=
  map (fun i => model_spike_samples i - start)
      (spikes_in_interval model_spike_samples spikes start end_).

(** ** Strided slices, background subsample, detrending *)

(** [l[::k]] for [k >= 1]: [c] elements are still to be skipped before the
    next kept one. *)
Fixpoint slice_step_from {A} (k c : nat) (l : list A) : list A :=
  match l with
  | [] => []
  | x :: l' =>
    match c with
    | O => x :: slice_step_from k (k - 1) l'
    | S c' => slice_step_from k c' l'
    end
  end.

Definition slice_step {A} (k : nat) (l : list A) : list A := slice_step_from k 0 l.

(** [BaseFeatureViewModel.on_open]: the step [k] of the background
    subsample, [max(1, n_spikes // n_spikes_max_bg)], or 1 when
    [n_spikes_max_bg] is [None]; [None] here is the [ZeroDivisionError]
    of [n_spikes_max_bg = 0]. *)
Definition background_step (n_spikes : nat) (n_spikes_max_bg : option nat)
    : option nat :=
  match n_spikes_max_bg with
  | Some O => None
  | Some m => Some (Nat.max 1 (n_spikes / m))
  | None => Some 1%nat
  end.

(** The background samples [t = self.model.spike_samples[::k]] (the
    background features are sliced with the same step). *)
Definition background_samples {A} (spike_samples : list A)
    (n_spikes_max_bg : option nat) : option (list A) :=
  match background_step (length spike_samples) n_spikes_max_bg with
  | Some k => Some (slice_step k spike_samples)
  | None => None
  end.



(** ** Feature grid: [FeatureGridViewModel.dimensions_for_clusters] *)

Section FeatureGrid.

(** [_best_channels(cluster)]: the channels of a cluster sorted by
    decreasing mean feature (an [argsort] of the store's mean features). *)
Variable best_channels : Z -> list Z.

(** The x and y channels chosen for a non-empty selection, with
    [n_rows - 1 = n_features]. *)
Definition grid_channels (n_features : nat) (cluster_ids : list Z)
    : list Z * list Z :=
  let n := length cluster_ids in
  let x_channels := best_channels (nth (Nat.min 1 (n - 1)) cluster_ids 0) in
  let y_channels := best_channels (nth 0 cluster_ids 0) in
  let y_channels := firstn n_features y_channels in
  let x_channels :=
    List.filter (fun c => negb (existsb (Z.eqb c) y_channels)) x_channels in
  let x_channels := firstn n_features x_channels in
  (x_channels, y_channels).

(** [dimensions_for_clusters(cluster_ids)]: [({}, {})] for an empty
    selection, else [_dimensions(x_channels, y_channels)]. *)
Definition dimensions_for_clusters (n_features : nat) (cluster_ids : list Z)
    : option (gmap (nat * nat) dim * gmap (nat * nat) dim) :=
  match cluster_ids with
  | [] => Some (∅, ∅)
  | _ =>
    let '(x_channels, y_channels) := grid_channels n_features cluster_ids in
    _dimensions x_channels y_channels
  end.

End FeatureGrid.

(** ** Scatter view: [ScatterView.on_select] *)

(** The arrays a [coords] function returns: one- or two-dimensional. *)
Inductive ndarray :=
  | NdVec (xs : list Q)
  | NdMat (rows : list (list Q)).

Definition ndim (a : ndarray) : nat :=
  match a with NdVec _ => 1%nat | NdMat _ => 2%nat end.

Definition shape (a : ndarray) : list nat :=
  match a with
  | NdVec xs => [length xs]
  | NdMat rows => [length rows; length (hd [] rows)]
  end.

(** [d.get('data_bounds', 'auto')]. *)
Inductive data_bounds :=
  | BoundsAuto
  | Bounds (b : list Q).

(** The [Bunch] returned by [coords(cluster_id)]. *)
Record coords_bunch := CoordsBunch {
  cb_x : ndarray;
  cb_y : ndarray;
  cb_data_bounds : option (list Q)
}.

(** The arguments of one [self.scatter(...)] call. *)
Record scatter_call := ScatterCall {
  sc_x : ndarray;
  sc_y : ndarray;
  sc_color : list Q;
  sc_size : Q;
  sc_data_bounds : data_bounds
}.

(** [on_select] returns, or fails an assertion, after the calls made so
    far. *)
Inductive scatter_result :=
  | ScatterReturned (calls : list scatter_call)
  | ScatterAssertionError (calls : list scatter_call).

Definition scatter_cons (c : scatter_call) (r : scatter_result) : scatter_result :=
  match r with
  | ScatterReturned cs => ScatterReturned (c :: cs)
  | ScatterAssertionError cs => ScatterAssertionError (c :: cs)
  end.

Definition _default_marker_size : Q := 5.

(** [assert x.ndim == y.ndim == 1] and [assert x.shape == y.shape]. *)
Definition scatter_arrays_ok (x y : ndarray) : bool :=
  Nat.eqb (ndim x) (ndim y) && Nat.eqb (ndim y) 1 &&
  bool_decide (shape x = shape y).

Section Scatter.

(** [self.coords] and [phy.utils._color._colormap]. *)
Variable coords : Z -> coords_bunch.
Variable _colormap : nat -> list Q.

(** The body of [for i, cluster_id in enumerate(cluster_ids)], from
    index [i]. *)
Fixpoint scatter_loop (i : nat) (cluster_ids : list Z) : scatter_result :=
  match cluster_ids with
  | [] => ScatterReturned []
  | cluster_id :: rest =>
    let d := coords cluster_id in
    let x := cb_x d in
    let y := cb_y d in
    let bounds := match cb_data_bounds d with
                  | Some b => Bounds b
                  | None => BoundsAuto
                  end in
    if scatter_arrays_ok x y then
      scatter_cons (ScatterCall x y (_colormap i ++ [1 # 2]%Q)
                                _default_marker_size bounds)
                   (scatter_loop (S i) rest)
    else ScatterAssertionError []
  end.

(** [ScatterView.on_select], after the base class has stored the
    selection in [self.cluster_ids]. *)
Definition scatter_on_select (cluster_ids : list Z) : scatter_result :=
  match length cluster_ids with
  | O => ScatterReturned []
  | _ => scatter_loop 0 cluster_ids
  end.

End Scatter.

(** ** Trace view keys: [TraceViewModel.on_key_press] *)

(** Run the next handler on the interval an [IntervalOk] holds; an error
    is raised out of the handler. *)
Definition interval_then (r : interval_result) (k : Z * Z -> interval_result)
    : interval_result :=
  match r with
  | IntervalOk start end_ => k (start, end_)
  | err => err
  end.

(** The interval after [TraceViewModel.on_key_press] with the given
    modifiers and key, from the current interval; the base class only
    shows the shortcuts on ['h'], which leaves the interval alone. The
    default fraction [.05] is [1/20]. *)
Definition trace_on_key_press (n : Z) (interval : Z * Z)
    (modifiers : list string) (key : string) : interval_result :=
  let keep iv := IntervalOk (fst iv) (snd iv) in
  let r :=
    if existsb (String.eqb "Control") modifiers then
      if String.eqb key "Left" then move_left n interval (1 # 20)
      else if String.eqb key "Right" then move_right n interval (1 # 20)
      else keep interval
    else keep interval in
  interval_then r (fun iv =>
    if existsb (String.eqb "Shift") modifiers then
      if String.eqb key "Left" then move_left n iv 1
      else if String.eqb key "Right" then move_right n iv 1
      else keep iv
    else keep iv).

(** ** Feature arrays: [BaseFeatureViewModel._rescale_features] *)

(** Consecutive blocks of [k] elements of [l] ([fuel] bounds the number
    of blocks). *)
Fixpoint chunks_fuel {A} (fuel k : nat) (l : list A) : list (list A) :=
  match fuel with
  | O => []
  | S fuel' =>
    match l with
    | [] => []
    | _ => firstn k l :: chunks_fuel fuel' k (skipn k l)
    end
  end.

Definition chunks {A} (k : nat) (l : list A) : list (list A) :=
  chunks_fuel (length l) k l.

(** [features[:, :n_fet * n_channels].reshape((-1, n_channels, n_fet))]
    on the rows (spikes) of a two-dimensional array, row-major, then
    [* self.scale_factor]. [None] is the [ValueError] of [reshape]: the
    size is not a multiple of [n_channels * n_fet], or that product is 0
    so the [-1] cannot be inferred. *)
Definition _rescale_features (n_fet n_channels : nat) (scale_factor : Q)
    (features : list (list Q)) : option (list (list (list Q))) :=
  let flat := concat (map (firstn (n_fet * n_channels)) features) in
  let cell := (n_channels * n_fet)%nat in
  if Nat.eqb cell 0 || negb (Nat.eqb (length flat mod cell) 0) then None
  else Some (map (fun spike => map (map (fun x => x * scale_factor)%Q)
                                   (chunks n_fet spike))
                 (chunks cell flat)).

(** ** Trace interval: proofs *)

Lemma py_int_inject_Z (z : Z) : py_int (inject_Z z) = z.
Proof.
  unfold py_int. destruct (Qle_bool 0 (inject_Z z)).
  - apply Qfloor_Z.
  - change (- inject_Z z)%Q with (inject_Z (- z)). rewrite Qfloor_Z. lia.
Qed.

Lemma interval_check_true (a b n : Z) :
  0 <= a /\ a < b /\ b <= n -> (0 <=? a) && (a <? b) && (b <=? n) = true.
Proof.
  intros H. apply andb_true_intro; split; [apply andb_true_intro; split|].
  - apply Z.leb_le; lia.
  - apply Z.ltb_lt; lia.
  - apply Z.leb_le; lia.
Qed.

(** The clamping, integer part: any [start < end] gives a valid interval,
    with its width kept when it fits. *)
Lemma clamp_interval_valid (n start end_ : Z) :
  1 <= n -> start < end_ ->
  exists s e, clamp_interval n start end_ = IntervalOk s e /\
    0 <= s /\ s < e /\ e <= n /\ (end_ - start <= n -> e - s = end_ - start).
Proof.
  intros Hn Hlt. unfold clamp_interval, np_clip.
  destruct (Z.ltb_spec start 0); [|destruct (Z.leb_spec n end_)];
    rewrite interval_check_true by lia;
    eexists _, _; (split; [reflexivity|lia]).
Qed.

Lemma clamp_interval_fixed (n start end_ : Z) :
  0 <= start /\ start < end_ /\ end_ <= n -> clamp_interval n start end_ = IntervalOk start end_.
Proof.
  intros H. unfold clamp_interval, np_clip.
  destruct (Z.ltb_spec start 0); [lia|].
  destruct (Z.leb_spec n end_).
  - assert (end_ = n) by lia. subst end_.
    rewrite interval_check_true by lia. f_equal; lia.
  - rewrite interval_check_true by lia. f_equal; lia.
Qed.

(** C1: setting the interval to integers [(start, end)] with
    [start < end], each possibly outside [[0, n)], stores
    [(start', end')] with [0 <= start' < end' <= n] (so the assertion
    holds), of the same width when [end - start <= n]. *)
Theorem interval_setter_clamps (n start end_ : Z) :
  1 <= n -> start < end_ ->
  exists s e,
    set_interval n (PyTuple [inject_Z start; inject_Z end_]) = IntervalOk s e /\
    0 <= s /\ s < e /\ e <= n /\ (end_ - start <= n -> e - s = end_ - start).
Proof.
  intros Hn Hlt. simpl. rewrite !py_int_inject_Z.
  apply clamp_interval_valid; assumption.
Qed.

Lemma interval_setter_clamps_witness :
  exists s e,
    set_interval 100 (PyTuple [inject_Z (-30); inject_Z 20]) = IntervalOk s e /\
    0 <= s /\ s < e /\ e <= 100 /\ (20 - -30 <= 100 -> e - s = 20 - -30).
Proof. apply (interval_setter_clamps 100 (-30) 20); lia. Defined.

(** C9: on an already clamped interval the setter stores it unchanged. *)
Theorem interval_setter_idempotent (n start end_ : Z) :
  0 <= start /\ start < end_ /\ end_ <= n ->
  set_interval n (PyTuple [inject_Z start; inject_Z end_]) = IntervalOk start end_.
Proof.
  intros H. simpl. rewrite !py_int_inject_Z. apply clamp_interval_fixed; assumption.
Qed.

Lemma interval_setter_idempotent_witness :
  set_interval 100 (PyTuple [inject_Z 50; inject_Z 100]) = IntervalOk 50 100.
Proof. apply (interval_setter_idempotent 100 50 100); lia. Defined.

(** C7, counterexample: a list of two numbers is two values, yet the
    setter raises its [ValueError], as it only accepts a tuple. *)
Lemma interval_setter_rejects_list :
  set_interval 100 (PyList [0%Q; 10%Q]) = IntervalValueError.
Proof. reflexivity. Qed.

(** C7, amended: the setter raises its [ValueError] exactly when the
    argument is not a tuple of length two; a tuple of two numbers goes on
    to [int()] conversion and clamping. *)
Theorem interval_setter_value_error (n : Z) (value : pyarg) :
  (set_interval n value = IntervalValueError <-> is_pair_tuple value = false) /\
  (forall a b : Q,
     set_interval n (PyTuple [a; b]) = clamp_interval n (py_int a) (py_int b)).
Proof.
  split; [|reflexivity].
  assert (Hc : forall s e, clamp_interval n s e <> IntervalValueError).
  { intros s e. unfold clamp_interval.
    destruct (if s <? 0 then _ else _) as [s1 e1].
    destruct (_ && _); discriminate. }
  destruct value as [xs|xs|x]; simpl; try tauto.
  destruct xs as [|a [|b [|c xs]]]; simpl; split; intros H;
    try reflexivity; try discriminate; try (exfalso; eapply Hc; eassumption).
Qed.

(** ** Correlograms: proofs *)

Lemma py_int_nonneg (q : Q) : (0 <= q)%Q -> py_int q = Qfloor q.
Proof.
  intros H. unfold py_int. apply Qle_bool_iff in H. rewrite H. reflexivity.
Qed.

Lemma np_clipQ_ge (a lo hi : Q) : (lo <= hi)%Q -> (lo <= np_clipQ a lo hi)%Q.
Proof.
  intros H. unfold np_clipQ. apply Q.min_glb; [apply Q.le_max_r | exact H].
Qed.

Lemma clipped_ms_pos (x : Q) : (0 < np_clipQ (x * (1 # 1000)) (1 # 1000) 1000000)%Q.
Proof.
  apply Qlt_le_trans with (1 # 1000); [reflexivity|].
  apply np_clipQ_ge. discriminate.
Qed.

Lemma oddify_odd (x : Z) : _oddify x mod 2 = 1.
Proof.
  unfold _oddify. destruct (Z.eqb_spec (x mod 2) 1); [assumption|].
  pose proof (Z.mod_pos_bound x 2) as B.
  assert (H0 : x mod 2 = 0) by lia. rewrite Zplus_mod, H0. reflexivity.
Qed.

(** C3: [winsize_bins] is [2 * floor(half_width_s / bin_s) + 1], hence
    odd; [_oddify] returns an odd number for every integer, so the window
    given to the kernel is odd whatever [winsize_bins] holds; at
    [sr = 20000], [change_bins(1.0, 20.5)] gives [(20, 41)]. *)
Theorem change_bins_odd_window (sr bin half_width : Q) :
  let bin_s := np_clipQ (bin * (1 # 1000)) (1 # 1000) 1000000 in
  let half_s := np_clipQ (half_width * (1 # 1000)) (1 # 1000) 1000000 in
  snd (change_bins sr bin half_width) = 2 * Qfloor (half_s / bin_s) + 1 /\
  snd (change_bins sr bin half_width) mod 2 = 1 /\
  (forall w : Z, _oddify w mod 2 = 1) /\
  change_bins 20000 1 (41 # 2) = (20, 41).
Proof.
  intros bin_s half_s.
  assert (Hw : snd (change_bins sr bin half_width) = 2 * Qfloor (half_s / bin_s) + 1).
  { simpl. f_equal. f_equal. apply py_int_nonneg.
    apply Qle_shift_div_l; [apply clipped_ms_pos|].
    rewrite Qmult_0_l. apply Qlt_le_weak, clipped_ms_pos. }
  split; [exact Hw|]. split.
  { rewrite Hw. rewrite Z.add_comm, Z.mul_comm, Z_mod_plus_full. reflexivity. }
  split; [exact oddify_odd | reflexivity].
Qed.

(** C4, counterexample: at [sr = 20000] and [bin = 1.09] ms the product
    [sr * bin_s] is [21.8], whose nearest integer is [22], while
    [change_bins] stores [binsize = 21]. *)
Lemma change_bins_binsize_truncates :
  fst (change_bins 20000 (109 # 100) 20) = 21 /\
  (Qabs (20000 * ((109 # 100) * (1 # 1000)) - 22) < 1 # 2)%Q.
Proof. split; reflexivity. Qed.

(** C4, amended: for a non-negative sample rate, [binsize] is
    [int(sr * bin_s)], the floor of the product: the largest integer not
    above it. *)
Theorem change_bins_binsize_floor (sr bin half_width : Q) :
  (0 <= sr)%Q ->
  let bin_s := np_clipQ (bin * (1 # 1000)) (1 # 1000) 1000000 in
  fst (change_bins sr bin half_width) = Qfloor (sr * bin_s) /\
  (inject_Z (fst (change_bins sr bin half_width)) <= sr * bin_s)%Q /\
  (sr * bin_s < inject_Z (fst (change_bins sr bin half_width) + 1))%Q.
Proof.
  intros Hsr bin_s.
  assert (H : fst (change_bins sr bin half_width) = Qfloor (sr * bin_s)).
  { simpl. apply py_int_nonneg. apply Qmult_le_0_compat; [exact Hsr|].
    apply Qlt_le_weak, clipped_ms_pos. }
  rewrite H. split; [reflexivity|]. split; [apply Qfloor_le | apply Qlt_floor].
Qed.

Lemma change_bins_binsize_floor_witness :
  (0 <= 20000)%Q /\ fst (change_bins 20000 (109 # 100) 20) = 21.
Proof.
  split; [discriminate|].
  destruct (change_bins_binsize_floor 20000 (109 # 100) 20) as [H _];
    [discriminate|].
  rewrite H. reflexivity.
Defined.

Lemma fold_Qmax_ge_acc (l : list Q) (a : Q) : (a <= fold_left Qmax l a)%Q.
Proof.
  revert a. induction l as [|x l IH]; intros a; simpl.
  - apply Qle_refl.
  - apply Qle_trans with (Qmax a x); [apply Q.le_max_l | apply IH].
Qed.

Lemma fold_Qmax_ge_in (l : list Q) (a x : Q) :
  In x l -> (x <= fold_left Qmax l a)%Q.
Proof.
  revert a. induction l as [|y l IH]; intros a Hin; simpl in *; [contradiction|].
  destruct Hin as [->|Hin].
  - apply Qle_trans with (Qmax a x); [apply Q.le_max_r | apply fold_Qmax_ge_acc].
  - apply IH, Hin.
Qed.

(** Every entry is at most the maximum. *)
Lemma maxl_ge (l : list Q) (x : Q) : In x l -> (x <= maxl l)%Q.
Proof.
  destruct l as [|y l]; simpl; [contradiction|]. unfold maxl; simpl.
  intros [<-|Hin]; [apply fold_Qmax_ge_acc | apply fold_Qmax_ge_in, Hin].
Qed.

Lemma divisor_ge_one (m : Q) : (1 <= Qmax 1 m)%Q.
Proof. apply Q.le_max_l. Qed.

Lemma scaled_le_one (x d : Q) : (x <= d)%Q -> (0 < d)%Q -> (x * (1 / d) <= 1)%Q.
Proof.
  intros Hx Hd.
  assert (Hinv : (0 <= 1 / d)%Q).
  { apply Qle_shift_div_l; [exact Hd|]. rewrite Qmult_0_l. discriminate. }
  apply Qle_trans with (d * (1 / d))%Q.
  - apply Qmult_le_compat_r; assumption.
  - rewrite Qmult_div_r; [apply Qle_refl|].
    intros E. rewrite E in Hd. discriminate.
Qed.

(** C2: on a non-empty array, the ['equal'] mode multiplies every entry by
    the one scalar [1 / max(1, ccgs.max())], the ['independent'] mode each
    [[i, j, :]] slice by [1 / max(1, slice.max())]; every divisor is at
    least 1, and every entry normalized in ['equal'] mode is at most 1. *)
Theorem normalize_modes (ccgs : tensor) :
  ccgs <> [] ->
  let d := Qmax 1 (tensor_max ccgs) in
  (1 <= d)%Q /\
  _normalize "equal" ccgs = Some (map (map (map (fun x => x * (1 / d))%Q)) ccgs) /\
  (forall lags : list Q, (1 <= Qmax 1 (maxl lags))%Q) /\
  _normalize "independent" ccgs =
    Some (map (map (fun lags => map (fun x => x * (1 / Qmax 1 (maxl lags)))%Q lags))
              ccgs) /\
  (forall t, _normalize "equal" ccgs = Some t ->
     forall y, In y (concat (concat t)) -> (y <= 1)%Q).
Proof.
  intros Hne d. destruct ccgs as [|row rows]; [contradiction|].
  assert (Heq : _normalize "equal" (row :: rows) =
                Some (map (map (map (fun x => x * (1 / d))%Q)) (row :: rows)))
    by reflexivity.
  split; [apply divisor_ge_one|]. split; [exact Heq|].
  split; [intros; apply divisor_ge_one|]. split; [reflexivity|].
  intros t Ht y Hy. rewrite Heq in Ht.
  assert (Ht' : t = map (map (map (fun x => x * (1 / d))%Q)) (row :: rows))
    by congruence.
  subst t.
  rewrite <- !concat_map in Hy. apply in_map_iff in Hy as [x [<- Hx]].
  apply scaled_le_one.
  - apply Qle_trans with (tensor_max (row :: rows)); [apply maxl_ge, Hx|].
    apply Q.le_max_r.
  - apply Qlt_le_trans with 1%Q; [reflexivity | apply divisor_ge_one].
Qed.

Lemma normalize_modes_witness :
  [[[0%Q; 4%Q; 2%Q]]] <> [] /\
  _normalize "equal" [[[0%Q; 4%Q; 2%Q]]] =
    Some [[[(0 * (1 / 4))%Q; (4 * (1 / 4))%Q; (2 * (1 / 4))%Q]]].
Proof.
  split; [discriminate|].
  destruct (normalize_modes [[[0%Q; 4%Q; 2%Q]]]) as [_ [H _]]; [discriminate|].
  rewrite H. reflexivity.
Defined.

(** C10: with a mode other than ['equal'] and ['independent'],
    [_normalize] returns [None] on a non-empty array; an empty array is
    returned as it is, whatever the mode. *)
Theorem normalize_unknown_mode (mode : string) (ccgs : tensor) :
  mode <> "equal"%string -> mode <> "independent"%string -> ccgs <> [] ->
  _normalize mode ccgs = None /\ (forall m : string, _normalize m [] = Some []).
Proof.
  intros He Hi Hne. split; [|reflexivity].
  destruct ccgs as [|row rows]; [contradiction|]. simpl.
  destruct (String.eqb_spec mode "equal"); [contradiction|].
  destruct (String.eqb_spec mode "independent"); [contradiction|].
  reflexivity.
Qed.

Lemma normalize_unknown_mode_witness :
  _normalize "Equal"%string [[[1%Q]]] = None.
Proof.
  destruct (normalize_unknown_mode "Equal"%string [[[1%Q]]]) as [H _];
    [discriminate | discriminate | discriminate | exact H].
Defined.

(** C8: with a cached array [t], the [normalization] setter and
    [toggle_normalization] keep [_ccgs] and the parameters, make no kernel
    call, and push [_normalize(mode, t)] to the view. *)
Theorem normalization_switch_uses_cache (value : string) (s : ccg_state) (t : tensor) :
  ccgs s = Some t ->
  set_normalization value s =
    Returned (CcgState value (Some t) (_normalize value t)
                       (binsize s) (winsize_bins s) (kernel_calls s)) /\
  let m := if String.eqb (normalization s) "independent"%string then "equal"%string
           else "independent"%string in
  toggle_normalization s =
    Returned (CcgState m (Some t) (_normalize m t)
                       (binsize s) (winsize_bins s) (kernel_calls s)).
Proof.
  intros Hc. unfold toggle_normalization, set_normalization.
  rewrite Hc. split; reflexivity.
Qed.

Lemma normalization_switch_uses_cache_witness :
  toggle_normalization (CcgState "equal"%string (Some [[[2%Q; 1%Q]]]) None 20 41 1) =
    Returned (CcgState "independent"%string (Some [[[2%Q; 1%Q]]])
                (_normalize "independent"%string [[[2%Q; 1%Q]]]) 20 41 1).
Proof.
  destruct (normalization_switch_uses_cache "equal"%string
              (CcgState "equal"%string (Some [[[2%Q; 1%Q]]]) None 20 41 1)
              [[[2%Q; 1%Q]]]) as [_ H]; [reflexivity|].
  exact H.
Defined.

(** ** Feature grid: proofs *)

Local Open Scope nat_scope.

(** The grid of §4.4 of the specification, cell by cell, to compare with
    [_dimensions]. *)
Definition x_dim_spec (x_channels : list Z) (r c : nat) : option dim :=
  let n := length x_channels in
  if decide (r ≤ n ∧ c ≤ n) then
    Some (if decide (r = 0 ∨ c = 0) then DTime
          else DChan (x_channels !!! (r - 1)) (c - 1))
  else None.

Definition y_dim_spec (x_channels y_channels : list Z) (r c : nat) : option dim :=
  let n := length x_channels in
  if decide (r ≤ n ∧ c ≤ n) then
    Some (if decide (r = 0 ∧ c = 0) then DTime
          else if decide (r = 0) then DChan (x_channels !!! (c - 1)) 0
          else if decide (c = 0) then DChan (y_channels !!! (r - 1)) 0
          else DChan (y_channels !!! (c - 1)) (r - 1))
  else None.

Lemma pair_ne (a b c d : nat) : (a, b) ≠ (c, d) -> a ≠ c ∨ b ≠ d.
Proof.
  intros H. destruct (decide (a = c)) as [->|]; [right; congruence | left; done].
Qed.

Ltac grid_solve :=
  repeat case_decide; destruct_and?; simplify_eq/=;
  repeat match goal with H : ¬ (_, _) = (_, _) |- _ => apply pair_ne in H end;
  first [done | lia | exfalso; lia].

(** The border loop sets [(0, i)] and [(i, 0)] for [i = 1..m]. *)
Lemma border_fold (xc yc : list Z) (m : nat) acc (r c : nat) :
  (fold_left (border_step xc yc) (seq 1 m) acc).1 !! (r, c) =
    (if decide ((r = 0 ∧ 1 ≤ c ≤ m) ∨ (c = 0 ∧ 1 ≤ r ≤ m)) then Some DTime
     else acc.1 !! (r, c)) ∧
  (fold_left (border_step xc yc) (seq 1 m) acc).2 !! (r, c) =
    (if decide (r = 0 ∧ 1 ≤ c ≤ m) then Some (DChan (xc !!! (c - 1)) 0)
     else if decide (c = 0 ∧ 1 ≤ r ≤ m) then Some (DChan (yc !!! (r - 1)) 0)
     else acc.2 !! (r, c)).
Proof.
  induction m as [|m IH].
  - simpl. split; grid_solve.
  - rewrite seq_S, fold_left_app. simpl.
    destruct (fold_left (border_step xc yc) (seq 1 m) acc) as [xd yd].
    destruct IH as [IH1 IH2]. simpl in IH1, IH2 |- *.
    rewrite !lookup_insert, IH1, IH2. split; grid_solve.
Qed.

(** One pass of the inner loop sets [(i, j)] for [j = 1..p]. *)
Lemma inner_fold (xc yc : list Z) (i p : nat) acc (r c : nat) :
  (fold_left (inner_step xc yc i) (seq 1 p) acc).1 !! (r, c) =
    (if decide (r = i ∧ 1 ≤ c ≤ p) then Some (DChan (xc !!! (i - 1)) (c - 1))
     else acc.1 !! (r, c)) ∧
  (fold_left (inner_step xc yc i) (seq 1 p) acc).2 !! (r, c) =
    (if decide (r = i ∧ 1 ≤ c ≤ p) then Some (DChan (yc !!! (c - 1)) (i - 1))
     else acc.2 !! (r, c)).
Proof.
  induction p as [|p IH].
  - simpl. split; grid_solve.
  - rewrite seq_S, fold_left_app. simpl.
    destruct (fold_left (inner_step xc yc i) (seq 1 p) acc) as [xd yd].
    destruct IH as [IH1 IH2]. simpl in IH1, IH2 |- *.
    rewrite !lookup_insert, IH1, IH2. split; grid_solve.
Qed.

(** The nested loops set [(i, j)] for [i = 1..m] and [j = 1..n]. *)
Lemma outer_fold (xc yc : list Z) (n m : nat) acc (r c : nat) :
  (fold_left (fun acc i => fold_left (inner_step xc yc i) (seq 1 n) acc)
             (seq 1 m) acc).1 !! (r, c) =
    (if decide (1 ≤ r ≤ m ∧ 1 ≤ c ≤ n) then Some (DChan (xc !!! (r - 1)) (c - 1))
     else acc.1 !! (r, c)) ∧
  (fold_left (fun acc i => fold_left (inner_step xc yc i) (seq 1 n) acc)
             (seq 1 m) acc).2 !! (r, c) =
    (if decide (1 ≤ r ≤ m ∧ 1 ≤ c ≤ n) then Some (DChan (yc !!! (c - 1)) (r - 1))
     else acc.2 !! (r, c)).
Proof.
  induction m as [|m IH].
  - simpl. split; grid_solve.
  - rewrite seq_S, fold_left_app. simpl.
    destruct IH as [IH1 IH2].
    destruct (inner_fold xc yc (S m) n
                (fold_left (fun acc i => fold_left (inner_step xc yc i) (seq 1 n) acc)
                           (seq 1 m) acc) r c) as [A1 A2].
    rewrite A1, A2, IH1, IH2. split; grid_solve.
Qed.

Lemma dimensions_lookup (xc yc : list Z) :
  length yc = length xc ->
  exists p, _dimensions xc yc = Some p ∧
    ∀ r c, p.1 !! (r, c) = x_dim_spec xc r c ∧ p.2 !! (r, c) = y_dim_spec xc yc r c.
Proof.
  intros Hlen. unfold _dimensions. rewrite Hlen, Nat.eqb_refl. simpl.
  eexists; split; [reflexivity|]. intros r c.
  destruct (outer_fold xc yc (length xc) (length xc)
              (fold_left (border_step xc yc) (seq 1 (length xc))
                 (<[(0%nat, 0%nat):=DTime]> ∅, <[(0%nat, 0%nat):=DTime]> ∅)) r c)
    as [O1 O2].
  destruct (border_fold xc yc (length xc)
              (<[(0%nat, 0%nat):=DTime]> ∅, <[(0%nat, 0%nat):=DTime]> ∅) r c)
    as [B1 B2].
  rewrite O1, O2, B1, B2. simpl. rewrite !lookup_insert, !lookup_empty.
  unfold x_dim_spec, y_dim_spec. split; grid_solve.
Qed.

(** C6: for channel lists of equal length [n], both maps have exactly the
    keys [(row, col)] with [row, col] in [[0, n]]; the first row and the
    first column hold ['time'] on x and [(x_channels[col-1], 0)] resp.
    [(y_channels[row-1], 0)] on y; an interior cell holds
    [(x_channels[row-1], col-1)] on x and [(y_channels[col-1], row-1)]
    on y. *)
Theorem dimensions_grid (x_channels y_channels : list Z) :
  length y_channels = length x_channels ->
  exists x_dim y_dim, _dimensions x_channels y_channels = Some (x_dim, y_dim) ∧
    ∀ r c,
      x_dim !! (r, c) = x_dim_spec x_channels r c ∧
      y_dim !! (r, c) = y_dim_spec x_channels y_channels r c ∧
      (is_Some (x_dim !! (r, c)) ↔ r ≤ length x_channels ∧ c ≤ length x_channels) ∧
      (is_Some (y_dim !! (r, c)) ↔ r ≤ length x_channels ∧ c ≤ length x_channels).
Proof.
  intros Hlen. destruct (dimensions_lookup x_channels y_channels Hlen) as [[xd yd] [E H]].
  exists xd, yd. split; [exact E|]. intros r c. destruct (H r c) as [Hx Hy].
  simpl in Hx, Hy. rewrite Hx, Hy. unfold x_dim_spec, y_dim_spec.
  split; [reflexivity|]. split; [reflexivity|].
  case_decide as Hd.
  - split; split; intros; [exact Hd | eexists; reflexivity
                          | exact Hd | eexists; reflexivity].
  - split; split; intros Hs; try contradiction;
      destruct Hs as [? Hs]; discriminate.
Qed.

Lemma dimensions_grid_witness :
  length [7%Z; 9%Z] = length [3%Z; 5%Z] ∧
  exists x_dim y_dim, _dimensions [3%Z; 5%Z] [7%Z; 9%Z] = Some (x_dim, y_dim) ∧
    x_dim !! (0, 2) = x_dim_spec [3%Z; 5%Z] 0 2.
Proof.
  split; [reflexivity|].
  destruct (dimensions_grid [3%Z; 5%Z] [7%Z; 9%Z]) as (xd & yd & E & H);
    [reflexivity|].
  exists xd, yd. split; [exact E | apply H].
Defined.

(** C5, counterexample: for [x_channels = [3, 5]], [y_channels = [7, 9]]
    the x dimension of cell [(2, 2)] is not [(3, 1)]. *)
Lemma dimensions_example_x22 :
  match _dimensions [3%Z; 5%Z] [7%Z; 9%Z] with
  | Some (x_dim, _) => x_dim !! (2, 2) ≠ Some (DChan 3 1)
  | None => False
  end.
Proof. vm_compute. discriminate. Qed.

(** C5, amended: for equal lengths cell [(0, 0)] is ['time'] on both axes;
    for [x_channels = [3, 5]], [y_channels = [7, 9]]: [x_dim[1,1] = (3, 0)],
    [y_dim[1,1] = (7, 0)], [x_dim[2,2] = (5, 1)], [y_dim[2,2] = (9, 1)]. *)
Theorem dimensions_origin_and_example (x_channels y_channels : list Z) :
  length y_channels = length x_channels ->
  (exists x_dim y_dim, _dimensions x_channels y_channels = Some (x_dim, y_dim) ∧
     x_dim !! (0, 0) = Some DTime ∧ y_dim !! (0, 0) = Some DTime) ∧
  match _dimensions [3%Z; 5%Z] [7%Z; 9%Z] with
  | Some (x_dim, y_dim) =>
      x_dim !! (1, 1) = Some (DChan 3 0) ∧ y_dim !! (1, 1) = Some (DChan 7 0) ∧
      x_dim !! (2, 2) = Some (DChan 5 1) ∧ y_dim !! (2, 2) = Some (DChan 9 1)
  | None => False
  end.
Proof.
  intros Hlen. split.
  - destruct (dimensions_lookup x_channels y_channels Hlen) as [[xd yd] [E H]].
    exists xd, yd. split; [exact E|]. destruct (H 0 0) as [Hx Hy].
    simpl in Hx, Hy. rewrite Hx, Hy. unfold x_dim_spec, y_dim_spec.
    split; grid_solve.
  - vm_compute. repeat split.
Qed.

Lemma dimensions_origin_and_example_witness :
  exists x_dim y_dim, _dimensions [1%Z] [2%Z] = Some (x_dim, y_dim) ∧
     x_dim !! (0, 0) = Some DTime ∧ y_dim !! (0, 0) = Some DTime.
Proof.
  destruct (dimensions_origin_and_example [1%Z] [2%Z]) as [H _]; [reflexivity|].
  exact H.
Defined.

(** ** Trace navigation and default window: proofs *)

Local Open Scope Z_scope.

Lemma interval_check_sound (a b n : Z) :
  (0 <=? a) && (a <? b) && (b <=? n) = true -> 0 <= a /\ a < b /\ b <= n.
Proof.
  intros H. apply andb_prop in H as [H H3]. apply andb_prop in H as [H1 H2].
  apply Z.leb_le in H1. apply Z.ltb_lt in H2. apply Z.leb_le in H3. lia.
Qed.

(** When the window fits, the clamping keeps its width and slides its
    start into [[0, n - width]]. *)
Lemma clamp_interval_slide (n start end_ : Z) :
  start < end_ -> end_ - start <= n ->
  clamp_interval n start end_ =
    IntervalOk (Z.min (Z.max start 0) (n - (end_ - start)))
               (Z.min (Z.max start 0) (n - (end_ - start)) + (end_ - start)).
Proof.
  intros Hlt Hw. unfold clamp_interval, np_clip.
  destruct (Z.ltb_spec start 0); [|destruct (Z.leb_spec n end_)];
    rewrite interval_check_true by lia; f_equal; lia.
Qed.

(** A reversed or empty integer interval always ends in the assertion. *)
Lemma clamp_interval_reversed (n start end_ : Z) :
  end_ <= start -> clamp_interval n start end_ = IntervalAssertionError.
Proof.
  intros Hle. unfold clamp_interval, np_clip.
  destruct (Z.ltb_spec start 0); [|destruct (Z.leb_spec n end_)];
    match goal with
    | |- (if ?c then _ else _) = _ =>
        destruct c eqn:Hc; [apply interval_check_sound in Hc; lia | reflexivity]
    end.
Qed.

(** The setter accepts a pair [(a, b)] exactly when [int(a) < int(b)] and
    the recording has a sample; otherwise it fails its assertion. *)
Theorem interval_setter_accepts_iff (n : Z) (a b : Q) :
  ((exists s e, set_interval n (PyTuple [a; b]) = IntervalOk s e) <->
   py_int a < py_int b /\ 1 <= n) /\
  (~ (py_int a < py_int b /\ 1 <= n) ->
   set_interval n (PyTuple [a; b]) = IntervalAssertionError).
Proof.
  simpl. set (s := py_int a). set (e := py_int b).
  assert (Hok : forall s' e', clamp_interval n s e = IntervalOk s' e' ->
                              s < e /\ 1 <= n).
  { intros s' e' Hc. destruct (Z.ltb_spec s e).
    - unfold clamp_interval, np_clip in Hc.
      destruct (s <? 0); [|destruct (n <=? e)];
        destruct (_ && _) eqn:Hb; try discriminate;
        apply interval_check_sound in Hb; lia.
    - rewrite clamp_interval_reversed in Hc by lia. discriminate. }
  split; [split|].
  - intros (s' & e' & Hc). eapply Hok; eassumption.
  - intros [Hlt Hn]. destruct (clamp_interval_valid n s e Hn Hlt) as (s' & e' & Hc & _).
    eauto.
  - intros Hnot. destruct (clamp_interval n s e) as [s' e'| |] eqn:Hc.
    + exfalso. apply Hnot. eapply Hok; reflexivity.
    + exfalso. unfold clamp_interval in Hc.
      destruct (if s <? 0 then _ else _) as [s1 e1].
      destruct (_ && _); discriminate.
    + reflexivity.
Qed.

(** [move] from a valid interval keeps its width and slides it, stopping at
    either end of the recording. *)
Theorem move_slides_window (n start end_ : Z) (amount : Q) :
  0 <= start -> start < end_ -> end_ <= n ->
  let w := end_ - start in
  let s := Z.min (Z.max (start + py_int amount) 0) (n - w) in
  move n (start, end_) amount = IntervalOk s (s + w).
Proof.
  intros H0 H1 H2 w s. unfold move. simpl. rewrite !py_int_inject_Z.
  unfold s, w. rewrite clamp_interval_slide by lia. f_equal; f_equal; lia.
Qed.

Lemma move_slides_window_witness :
  move 100 (90, 100) (5 # 1) = IntervalOk 90 100.
Proof. apply (move_slides_window 100 90 100 (5 # 1)); lia. Defined.

Lemma py_int_wd (q1 q2 : Q) : (q1 == q2)%Q -> py_int q1 = py_int q2.
Proof.
  intros H. unfold py_int.
  assert (Hb : Qle_bool 0 q1 = Qle_bool 0 q2).
  { destruct (Qle_bool 0 q1) eqn:E1, (Qle_bool 0 q2) eqn:E2; try reflexivity.
    - apply Qle_bool_iff in E1. rewrite H in E1. apply Qle_bool_iff in E1.
      congruence.
    - apply Qle_bool_iff in E2. rewrite <- H in E2. apply Qle_bool_iff in E2.
      congruence. }
  rewrite Hb. destruct (Qle_bool 0 q2).
  - rewrite H. reflexivity.
  - assert (Ho : (- q1 == - q2)%Q) by (rewrite H; reflexivity).
    rewrite Ho. reflexivity.
Qed.

(** [int()] is odd: it truncates toward zero on both sides. *)
Lemma py_int_opp (q : Q) : py_int (- q) = - py_int q.
Proof.
  unfold py_int.
  destruct (Qle_bool 0 q) eqn:E1, (Qle_bool 0 (- q)) eqn:E2.
  - apply Qle_bool_iff in E1, E2.
    assert (Hq : (q == 0)%Q).
    { apply Qle_antisym; [|exact E1].
      apply Qopp_le_compat in E2. rewrite Qopp_involutive in E2. exact E2. }
    rewrite Hq. reflexivity.
  - destruct q as [a b]. simpl. rewrite Z.opp_involutive. reflexivity.
  - lia.
  - exfalso. destruct (Qlt_le_dec q 0) as [Hl|Hl].
    + apply Qlt_le_weak, Qopp_le_compat, Qle_bool_iff in Hl.
      change (- 0)%Q with 0%Q in Hl. congruence.
    + apply Qle_bool_iff in Hl. congruence.
Qed.

(** [move_right(fraction)] followed by [move_left(fraction)] returns to
    the starting interval when the first move was not stopped by the end
    of the recording. *)
Theorem move_right_left_roundtrip (n start end_ : Z) (fraction : Q) :
  0 <= start -> start < end_ -> end_ <= n ->
  let d := py_int (inject_Z (end_ - start) * fraction) in
  0 <= d -> start + d <= n - (end_ - start) ->
  move_right n (start, end_) fraction = IntervalOk (start + d) (end_ + d) /\
  move_left n (start + d, end_ + d) fraction = IntervalOk start end_.
Proof.
  intros H0 H1 H2 d Hd Hfit. split.
  - unfold move_right. rewrite (move_slides_window n start end_) by lia.
    rewrite py_int_inject_Z. fold d. f_equal; lia.
  - unfold move_left.
    rewrite (move_slides_window n (start + d) (end_ + d)) by lia.
    rewrite py_int_inject_Z.
    replace (end_ + d - (start + d)) with (end_ - start) by lia.
    rewrite (py_int_wd _ (- (inject_Z (end_ - start) * fraction))) by ring.
    rewrite py_int_opp. fold d. f_equal; lia.
Qed.

Lemma move_right_left_roundtrip_witness :
  move_right 1000 (100, 300) (1 # 2) = IntervalOk 200 400 /\
  move_left 1000 (200, 400) (1 # 2) = IntervalOk 100 300.
Proof.
  apply (move_right_left_roundtrip 1000 100 300 (1 # 2));
    [lia | lia | lia | discriminate | discriminate].
Defined.



(** When [interval_size * sample_rate / 2] truncates to 0 (or below), the
    window chosen on selection is empty and the setter's assertion fails. *)
Theorem trace_default_interval_too_small (n : Z) (interval_size sample_rate : Q)
    (first_sample : option Z) :
  py_int (interval_size * sample_rate / 2) <= 0 ->
  trace_default_interval n interval_size sample_rate first_sample =
    IntervalAssertionError.
Proof.
  intros Hh. unfold trace_default_interval. simpl. rewrite !py_int_inject_Z.
  apply clamp_interval_reversed. lia.
Qed.

Lemma trace_default_interval_too_small_witness :
  trace_default_interval 100000 (1 # 20000) 20000 None = IntervalAssertionError.
Proof.
  apply trace_default_interval_too_small. vm_compute. discriminate.
Defined.

(** ** Spikes in the trace window: proofs *)

Lemma searchsorted_zero (f : Z -> Z) (l : list Z) (v : Z) :
  Forall (fun y => v <= y) (map f l) -> searchsorted (map f l) v = 0%nat.
Proof.
  destruct l as [|x l]; simpl; [reflexivity|].
  intros H. inversion H as [|? ? Hx _]; subst.
  destruct (Z.leb_spec v (f x)); [reflexivity | lia].
Qed.

Lemma filter_window_above (f : Z -> Z) (l : list Z) (start end_ : Z) :
  Forall (fun y => end_ <= y) (map f l) ->
  List.filter (fun i => (start <=? f i) && (f i <? end_)) l = [].
Proof.
  induction l as [|x l IH]; simpl; intros H; [reflexivity|].
  inversion H as [|? ? Hx Hl]; subst.
  destruct (Z.ltb_spec (f x) end_); [lia|].
  rewrite andb_false_r. apply IH, Hl.
Qed.

Lemma spikes_in_interval_filter (f : Z -> Z) (l : list Z) (start end_ : Z) :
  StronglySorted Z.le (map f l) ->
  skipn (searchsorted (map f l) start) (firstn (searchsorted (map f l) end_) l) =
    List.filter (fun i => (start <=? f i) && (f i <? end_)) l.
Proof.
  induction l as [|x l IH]; simpl; intros Hs; [destruct (searchsorted [] start); reflexivity|].
  inversion Hs as [|? ? Hl Hall]; subst.
  destruct (Z.leb_spec end_ (f x)).
  - simpl. rewrite skipn_nil.
    destruct (Z.ltb_spec (f x) end_); [lia|]. rewrite andb_false_r.
    symmetry. apply filter_window_above.
    eapply List.Forall_impl; [|exact Hall]. simpl. lia.
  - simpl. destruct (Z.ltb_spec (f x) end_); [|lia].
    destruct (Z.leb_spec start (f x)).
    + simpl. f_equal. rewrite <- IH by exact Hl.
      rewrite (searchsorted_zero f l start); [reflexivity|].
      eapply List.Forall_impl; [|exact Hall]. simpl. lia.
    + simpl. apply IH, Hl.
Qed.

(** On time-sorted spikes, the trace view keeps exactly the selected
    spikes whose sample lies in [[start, end)], in their order, and their
    relative samples lie in [[0, end - start)]. *)
Theorem trace_spikes_in_window (model_spike_samples : Z -> Z) (spikes : list Z)
    (start end_ : Z) :
  Sorted Z.le (map model_spike_samples spikes) ->
  spikes_in_interval model_spike_samples spikes start end_ =
    List.filter (fun i => (start <=? model_spike_samples i) &&
                     (model_spike_samples i <? end_)) spikes /\
  Forall (fun r => 0 <= r < end_ - start)
         (relative_spike_samples model_spike_samples spikes start end_).
Proof.
  intros Hs. apply Sorted_StronglySorted in Hs; [|intros ? ? ?; lia].
  assert (E : spikes_in_interval model_spike_samples spikes start end_ =
    List.filter (fun i => (start <=? model_spike_samples i) &&
                     (model_spike_samples i <? end_)) spikes)
    by (apply spikes_in_interval_filter, Hs).
  split; [exact E|].
  unfold relative_spike_samples. rewrite E.
  apply Forall_map, List.Forall_forall. intros i Hi.
  apply filter_In in Hi as [_ Hi]. apply andb_prop in Hi as [H1 H2].
  apply Z.leb_le in H1. apply Z.ltb_lt in H2. lia.
Qed.

Lemma trace_spikes_in_window_witness :
  spikes_in_interval (fun i => 10 * i) [1; 2; 3; 4; 5] 20 41 = [2; 3; 4].
Proof.
  destruct (trace_spikes_in_window (fun i => 10 * i) [1; 2; 3; 4; 5] 20 41)
    as [H _].
  - repeat constructor; simpl; lia.
  - rewrite H. reflexivity.
Defined.

(** ** Strided slices, background subsample, detrending: proofs *)

Lemma slice_step_from_length {A} (k c : nat) (l : list A) :
  (1 <= k)%nat -> (c <= k - 1)%nat ->
  (length (slice_step_from k c l) * k <= length l + k - 1 - c)%nat.
Proof.
  revert c. induction l as [|x l IH]; intros c Hk Hc; simpl; [lia|].
  destruct c as [|c'].
  - simpl. specialize (IH (k - 1)%nat Hk ltac:(lia)). nia.
  - specialize (IH c' Hk ltac:(lia)). lia.
Qed.

Lemma slice_step_one {A} (l : list A) : slice_step 1 l = l.
Proof.
  unfold slice_step. induction l as [|x l IH]; simpl; [reflexivity|].
  f_equal. exact IH.
Qed.

(** The feature view's background subsample: with [n_spikes_max_bg = m >= 1]
    it keeps fewer than [2 * m] spikes, taken with a step [k >= 1]; with
    [None] it keeps every spike. *)
Theorem background_subsample_bounded {A} (spike_samples : list A) (m : nat) :
  (1 <= m)%nat ->
  (exists k bg, background_step (length spike_samples) (Some m) = Some k /\
     (1 <= k)%nat /\
     background_samples spike_samples (Some m) = Some bg /\
     bg = slice_step k spike_samples /\ (length bg < 2 * m)%nat) /\
  background_samples spike_samples None = Some spike_samples.
Proof.
  intros Hm. split.
  2:{ unfold background_samples. simpl. rewrite slice_step_one. reflexivity. }
  set (n := length spike_samples).
  set (k := Nat.max 1 (n / m)).
  assert (Hstep : background_step n (Some m) = Some k).
  { unfold background_step. destruct m; [lia | reflexivity]. }
  exists k, (slice_step k spike_samples).
  unfold background_samples. fold n. rewrite Hstep.
  split; [reflexivity|]. split; [lia|]. split; [reflexivity|]. split; [reflexivity|].
  pose proof (slice_step_from_length k 0 spike_samples ltac:(lia) ltac:(lia)) as Hl.
  fold n in Hl. unfold slice_step.
  set (c := length (slice_step_from k 0 spike_samples)) in *.
  pose proof (Nat.div_mod n m ltac:(lia)) as Hd.
  pose proof (Nat.mod_upper_bound n m ltac:(lia)) as Hr.
  set (q := (n / m)%nat) in *. set (r := (n mod m)%nat) in *.
  destruct (Nat.le_gt_cases q 1) as [Hq|Hq].
  - assert (k = 1%nat) by lia. rewrite H in Hl. nia.
  - assert (k = q) by lia. rewrite H in Hl. nia.
Qed.

Lemma background_subsample_bounded_witness :
  background_samples (seq 0 1000) (Some 300%nat) = Some (slice_step 3 (seq 0 1000)).
Proof.
  destruct (background_subsample_bounded (seq 0 1000) 300%nat) as [H _]; [lia|].
  destruct H as (k & bg & Hk & _ & Hbg & -> & _).
  rewrite Hbg. vm_compute in Hk. injection Hk as <-. reflexivity.
Defined.








(** ** Feature grid channels: proofs *)

Lemma NoDup_firstn_prefix {A} (k : nat) (l : list A) :
  List.NoDup l -> List.NoDup (firstn k l).
Proof.
  intros H. rewrite <- (firstn_skipn k l) in H.
  exact (List.NoDup_app_remove_r _ _ H).
Qed.

Lemma In_firstn_prefix {A} (k : nat) (l : list A) (x : A) :
  In x (firstn k l) -> In x l.
Proof.
  intros H. rewrite <- (firstn_skipn k l). apply in_or_app. now left.
Qed.

Lemma existsb_Zeqb_In (c : Z) (l : list Z) :
  existsb (Z.eqb c) l = true <-> In c l.
Proof.
  rewrite existsb_exists. split.
  - intros (x & Hx & He). apply Z.eqb_eq in He. now subst.
  - intros H. exists c. split; [exact H | apply Z.eqb_refl].
Qed.

(** Removing from a ranking [l1] the channels of a prefix [y] of a
    permutation of it leaves [length l1 - length y] channels. *)
Lemma filter_out_prefix_length (l0 l1 y : list Z) :
  List.NoDup l1 -> Permutation l1 l0 -> List.NoDup y -> (forall x, In x y -> In x l0) ->
  length (List.filter (fun c => negb (existsb (Z.eqb c) y)) l1)
  = (length l1 - length y)%nat.
Proof.
  intros Hnd1 Hp Hndy Hincl.
  pose proof (filter_length (fun c => existsb (Z.eqb c) y) l1) as Hfl.
  cbv beta in Hfl.
  assert (Hy : length (List.filter (fun c => existsb (Z.eqb c) y) l1) = length y).
  { apply Permutation_length, Permutation.NoDup_Permutation;
      [apply List.NoDup_filter; exact Hnd1 | exact Hndy |].
    intros x. rewrite filter_In, existsb_Zeqb_In. split.
    - intros [_ H]. exact H.
    - intros H. split; [| exact H].
      apply (Permutation_in x (Permutation_sym Hp)). now apply Hincl. }
  lia.
Qed.

Section FeatureGridProofs.

Variable best_channels : Z -> list Z.

(** FeatureGridViewModel.dimensions_for_clusters: when every cluster's
    ranking lists the same channels once each, a non-empty selection gets
    a grid exactly when the channel count [C] of the first cluster is 0
    or at least [2 * n_features] (otherwise too few channels are left
    for the x axis once the y channels are removed, and the assertion of
    [_dimensions] fails); the x channels never repeat a y channel; an
    empty selection gives two empty dictionaries. *)
Theorem feature_grid_dimensions (n_features : nat) (cluster_ids : list Z) :
  (forall c, List.NoDup (best_channels c)) ->
  (forall c c', Permutation (best_channels c) (best_channels c')) ->
  cluster_ids <> [] ->
  let C := length (best_channels (nth 0 cluster_ids 0%Z)) in
  (is_Some (dimensions_for_clusters best_channels n_features cluster_ids)
   <-> (2 * n_features <= C)%nat \/ C = 0%nat) /\
  (forall ch, In ch (fst (grid_channels best_channels n_features cluster_ids)) ->
              ~ In ch (snd (grid_channels best_channels n_features cluster_ids))) /\
  dimensions_for_clusters best_channels n_features [] = Some (∅, ∅).
Proof.
  intros Hnd Hperm Hne C.
  set (c1 := nth (Nat.min 1 (length cluster_ids - 1)) cluster_ids 0%Z).
  set (c0 := nth 0 cluster_ids 0%Z).
  set (y := firstn n_features (best_channels c0)).
  assert (Hndy : List.NoDup y) by (apply NoDup_firstn_prefix, Hnd).
  assert (Hlen1 : length (best_channels c1) = C) by
    (apply Permutation_length, Hperm).
  assert (Hleny : length y = Nat.min n_features C) by
    (unfold y; rewrite length_firstn; reflexivity).
  assert (Hf : length (List.filter (fun c => negb (existsb (Z.eqb c) y))
                         (best_channels c1)) = (C - Nat.min n_features C)%nat).
  { rewrite <- Hleny, <- Hlen1.
    apply (filter_out_prefix_length (best_channels c0)); auto.
    intros x. apply In_firstn_prefix. }
  split; [| split].
  - destruct cluster_ids as [| c cs]; [congruence |].
    unfold dimensions_for_clusters, grid_channels.
    fold c1. fold c0. fold y.
    unfold _dimensions. rewrite length_firstn, Hf, Hleny.
    destruct (Nat.eqb (Nat.min n_features C)
                (Nat.min n_features (C - Nat.min n_features C))) eqn:He.
    + apply Nat.eqb_eq in He. simpl. split; [intros _ | intros _; eexists; reflexivity].
      lia.
    + apply Nat.eqb_neq in He. simpl. split; [intros [p Hp]; discriminate |].
      intros H. exfalso. lia.
  - intros ch. unfold grid_channels. simpl. fold c1. fold c0. fold y.
    intros Hx Hy. apply In_firstn_prefix in Hx.
    apply filter_In in Hx as [_ Hx].
    apply (proj2 (existsb_Zeqb_In ch y)) in Hy. rewrite Hy in Hx. discriminate.
  - reflexivity.
Qed.

End FeatureGridProofs.

Lemma feature_grid_dimensions_witness :
  is_Some (dimensions_for_clusters (fun _ => [2; 0; 1]%Z) 1 [7; 4]%Z)
  <-> (2 * 1 <= length [2; 0; 1]%Z)%nat \/ length [2; 0; 1]%Z = 0%nat.
Proof.
  apply (feature_grid_dimensions (fun _ => [2; 0; 1]%Z) 1 [7; 4]%Z).
  - intros _. repeat constructor; simpl; lia.
  - intros _ _. apply Permutation_refl.
  - discriminate.
Defined.

(** ** Scatter view: proofs *)

Section ScatterProofs.

Variable coords : Z -> coords_bunch.
Variable _colormap : nat -> list Q.

Let bounds_of (c : Z) : data_bounds :=
  match cb_data_bounds (coords c) with Some b => Bounds b | None => BoundsAuto end.

Lemma scatter_loop_all_ok (i : nat) (cluster_ids : list Z) :
  (forall c, In c cluster_ids ->
     scatter_arrays_ok (cb_x (coords c)) (cb_y (coords c)) = true) ->
  exists calls, scatter_loop coords _colormap i cluster_ids = ScatterReturned calls /\
    length calls = length cluster_ids /\
    forall j c, nth_error cluster_ids j = Some c ->
      nth_error calls j =
        Some (ScatterCall (cb_x (coords c)) (cb_y (coords c))
                          (_colormap (i + j)%nat ++ [1 # 2]%Q) 5 (bounds_of c)).
Proof.
  revert i. induction cluster_ids as [| c0 rest IH]; intros i Hok.
  - exists []. split; [reflexivity|]. split; [reflexivity|].
    intros [|j] c H; discriminate.
  - destruct (IH (S i)) as (cs & Hr & Hl & Hn).
    { intros c Hc. apply Hok. now right. }
    simpl. rewrite (Hok c0 (or_introl eq_refl)), Hr. simpl.
    eexists. split; [reflexivity|]. split; [simpl; congruence|].
    intros [|j] c H; simpl in H.
    + injection H as <-. rewrite Nat.add_0_r. reflexivity.
    + simpl. rewrite (Hn j c H). replace (i + S j)%nat with (S i + j)%nat by lia. reflexivity.
Qed.

(** ScatterView.on_select: when every selected cluster's coordinates
    are one-dimensional arrays of the same shape, the view makes one
    [scatter] call per cluster, in the selection order; the [i]-th call
    draws that cluster's [x] and [y] with colour [_colormap(i) + (.5,)],
    marker size 5, and the cluster's [data_bounds] or ['auto']. *)
Theorem scatter_one_call_per_cluster (cluster_ids : list Z) :
  (forall c, In c cluster_ids ->
     scatter_arrays_ok (cb_x (coords c)) (cb_y (coords c)) = true) ->
  exists calls, scatter_on_select coords _colormap cluster_ids = ScatterReturned calls /\
    length calls = length cluster_ids /\
    forall i c, nth_error cluster_ids i = Some c ->
      nth_error calls i =
        Some (ScatterCall (cb_x (coords c)) (cb_y (coords c))
                          (_colormap i ++ [1 # 2]%Q) 5
                          (match cb_data_bounds (coords c) with
                           | Some b => Bounds b | None => BoundsAuto end)).
Proof.
  intros Hok. unfold scatter_on_select.
  destruct cluster_ids as [| c0 rest].
  - exists []. split; [reflexivity|]. split; [reflexivity|].
    intros [|i] c H; discriminate.
  - simpl length. cbv iota.
    destruct (scatter_loop_all_ok 0 (c0 :: rest) Hok) as (cs & Hr & Hl & Hn).
    exists cs. split; [exact Hr|]. split; [exact Hl|].
    intros i c H. rewrite (Hn i c H). reflexivity.
Qed.

Lemma scatter_loop_first_bad (i : nat) (pre post : list Z) (c : Z) :
  (forall c', In c' pre ->
     scatter_arrays_ok (cb_x (coords c')) (cb_y (coords c')) = true) ->
  scatter_arrays_ok (cb_x (coords c)) (cb_y (coords c)) = false ->
  exists calls,
    scatter_loop coords _colormap i (pre ++ c :: post) = ScatterAssertionError calls /\
    map sc_x calls = map (fun c' => cb_x (coords c')) pre.
Proof.
  revert i. induction pre as [| c0 pre IH]; intros i Hok Hbad.
  - exists []. simpl. rewrite Hbad. split; reflexivity.
  - destruct (IH (S i)) as (cs & Hr & Hm).
    { intros c' H. apply Hok. now right. }
    { exact Hbad. }
    simpl. rewrite (Hok c0 (or_introl eq_refl)), Hr. simpl.
    eexists. split; [reflexivity|]. simpl. congruence.
Qed.

(** ScatterView.on_select: the first selected cluster whose [x] and [y]
    are not one-dimensional arrays of the same shape fails an assertion,
    after exactly the [scatter] calls of the clusters before it; no later
    cluster is drawn. *)
Theorem scatter_stops_at_first_bad (pre post : list Z) (c : Z) :
  (forall c', In c' pre ->
     scatter_arrays_ok (cb_x (coords c')) (cb_y (coords c')) = true) ->
  scatter_arrays_ok (cb_x (coords c)) (cb_y (coords c)) = false ->
  exists calls,
    scatter_on_select coords _colormap (pre ++ c :: post) = ScatterAssertionError calls /\
    length calls = length pre /\
    map sc_x calls = map (fun c' => cb_x (coords c')) pre.
Proof.
  intros Hok Hbad. unfold scatter_on_select.
  destruct (scatter_loop_first_bad 0 pre post c Hok Hbad) as (cs & Hr & Hm).
  exists cs. rewrite length_app. simpl length.
  rewrite Nat.add_comm. simpl. split; [exact Hr|]. split; [|exact Hm].
  rewrite <- (length_map sc_x cs), Hm, length_map. reflexivity.
Qed.

End ScatterProofs.

Lemma scatter_one_call_per_cluster_witness :
  exists calls,
    scatter_on_select (fun c => CoordsBunch (NdVec [inject_Z c]) (NdVec [1%Q]) None)
                      (fun i => [inject_Z (Z.of_nat i)]) [4; 9]%Z = ScatterReturned calls /\
    length calls = 2%nat.
Proof.
  destruct (scatter_one_call_per_cluster
              (fun c => CoordsBunch (NdVec [inject_Z c]) (NdVec [1%Q]) None)
              (fun i => [inject_Z (Z.of_nat i)]) [4; 9]%Z) as (cs & H & Hl & _).
  - intros c _. reflexivity.
  - exists cs. split; [exact H | exact Hl].
Defined.

Lemma scatter_stops_at_first_bad_witness :
  exists calls,
    scatter_on_select
      (fun c => if Z.eqb c 9 then CoordsBunch (NdVec [1%Q]) (NdVec []) None
                else CoordsBunch (NdVec [1%Q]) (NdVec [2%Q]) None)
      (fun i => [inject_Z (Z.of_nat i)]) ([4]%Z ++ 9%Z :: [5]%Z)
    = ScatterAssertionError calls /\ length calls = 1%nat.
Proof.
  destruct (scatter_stops_at_first_bad
      (fun c => if Z.eqb c 9 then CoordsBunch (NdVec [1%Q]) (NdVec []) None
                else CoordsBunch (NdVec [1%Q]) (NdVec [2%Q]) None)
      (fun i => [inject_Z (Z.of_nat i)]) [4]%Z [5]%Z 9%Z) as (cs & H & Hl & _).
  - intros c' [<- | []]. reflexivity.
  - reflexivity.
  - exists cs. split; [exact H | exact Hl].
Defined.

(** ** Correlogram parameters and normalization: more proofs *)

Lemma clipped_ms_nonneg (x : Q) :
  (0 <= np_clipQ (x * (1 # 1000)) (1 # 1000) 1000000)%Q.
Proof. apply Qlt_le_weak, clipped_ms_pos. Qed.

(** CorrelogramViewModel.change_bins and _oddify: the new window holds at
    least one bin, and exactly one when the clipped half width is below
    the clipped bin; being odd, it reaches the kernel unchanged through
    [_oddify]. [_oddify] itself adds 0 or 1 and is idempotent. *)
Theorem change_bins_window_bounds (sr bin half_width : Q) :
  let bin_s := np_clipQ (bin * (1 # 1000)) (1 # 1000) 1000000 in
  let half_s := np_clipQ (half_width * (1 # 1000)) (1 # 1000) 1000000 in
  1 <= snd (change_bins sr bin half_width) /\
  (snd (change_bins sr bin half_width) = 1 <-> (half_s < bin_s)%Q) /\
  _oddify (snd (change_bins sr bin half_width)) = snd (change_bins sr bin half_width) /\
  (forall x, _oddify x = x \/ _oddify x = x + 1) /\
  (forall x, _oddify (_oddify x) = _oddify x).
Proof.
  intros bin_s half_s.
  assert (Hb : (0 < bin_s)%Q) by apply clipped_ms_pos.
  assert (Hq : (0 <= half_s / bin_s)%Q).
  { apply Qle_shift_div_l; [exact Hb|]. rewrite Qmult_0_l. apply clipped_ms_nonneg. }
  assert (Hw : snd (change_bins sr bin half_width) = 2 * Qfloor (half_s / bin_s) + 1).
  { simpl. f_equal. f_equal. apply py_int_nonneg. exact Hq. }
  assert (Hf0 : 0 <= Qfloor (half_s / bin_s)).
  { change 0 with (Qfloor 0). apply Qfloor_resp_le. exact Hq. }
  rewrite Hw. split; [lia|]. split; [split|]; [| | split; [| split]].
  - intros H1. assert (Hz : Qfloor (half_s / bin_s) = 0) by lia.
    pose proof (Qlt_floor (half_s / bin_s)) as Hlt. rewrite Hz in Hlt.
    apply Qnot_le_lt. intros Hge. apply (Qlt_not_le _ _ Hlt).
    apply Qle_shift_div_l; [exact Hb|]. rewrite Qmult_1_l. exact Hge.
  - intros Hlt.
    assert (Hq1 : (half_s / bin_s < 1)%Q).
    { apply Qlt_shift_div_r; [exact Hb|]. rewrite Qmult_1_l. exact Hlt. }
    assert (Hz : Qfloor (half_s / bin_s) < 1).
    { rewrite Zlt_Qlt. apply Qle_lt_trans with (half_s / bin_s)%Q;
        [apply Qfloor_le | exact Hq1]. }
    lia.
  - unfold _oddify.
    rewrite Z.add_comm, Z.mul_comm, Z_mod_plus_full. reflexivity.
  - intros x. unfold _oddify. destruct (x mod 2 =? 1); [left | right]; reflexivity.
  - intros x. unfold _oddify at 1. rewrite oddify_odd. reflexivity.
Qed.

(** CorrelogramViewModel._normalize: in the ['independent'] mode every
    normalized entry is at most 1, as in the ['equal'] mode. *)
Theorem normalize_independent_le_one (ccgs t : tensor) :
  _normalize "independent"%string ccgs = Some t ->
  forall y, In y (concat (concat t)) -> (y <= 1)%Q.
Proof.
  intros Ht y Hy. destruct ccgs as [| row rows].
  - simpl in Ht. injection Ht as <-. destruct Hy.
  - assert (Ht' : t = map (map (fun lags =>
                     map (fun x => x * (1 / Qmax 1 (maxl lags)))%Q lags)) (row :: rows))
      by (simpl in Ht |- *; congruence).
    subst t. rewrite <- concat_map in Hy.
    apply in_concat in Hy as (lags' & Hl & Hy).
    apply in_map_iff in Hl as (lags & <- & _).
    apply in_map_iff in Hy as (x & <- & Hx).
    apply scaled_le_one.
    + apply Qle_trans with (maxl lags); [apply maxl_ge, Hx | apply Q.le_max_r].
    + apply Qlt_le_trans with 1%Q; [reflexivity | apply divisor_ge_one].
Qed.

Lemma normalize_independent_le_one_witness :
  (2 * (1 / 4) <= 1)%Q.
Proof.
  apply (normalize_independent_le_one [[[2%Q; 4%Q]]]
           [[[(2 * (1 / Qmax 1 4))%Q; (4 * (1 / Qmax 1 4))%Q]]]).
  - reflexivity.
  - simpl. left. reflexivity.
Defined.

(** CorrelogramViewModel.toggle_normalization: from either known mode
    with correlograms cached, two toggles return to the mode, the pushed
    array and the cache of the start, with no kernel call; the first
    toggle changes the mode. *)
Theorem toggle_normalization_twice (s : ccg_state) (t : tensor) :
  ccgs s = Some t ->
  normalization s = "equal"%string \/ normalization s = "independent"%string ->
  exists s1, toggle_normalization s = Returned s1 /\
    normalization s1 <> normalization s /\
    toggle_normalization s1 =
      Returned (CcgState (normalization s) (Some t) (_normalize (normalization s) t)
                         (binsize s) (winsize_bins s) (kernel_calls s)).
Proof.
  intros Hc Hm. unfold toggle_normalization, set_normalization. rewrite Hc.
  destruct Hm as [Hm | Hm]; rewrite Hm; simpl;
    eexists; (split; [reflexivity|]); simpl; split; try discriminate; reflexivity.
Qed.

Lemma toggle_normalization_twice_witness :
  exists s1,
    toggle_normalization (CcgState "equal"%string (Some [[[2%Q]]]) None 20 41 1) =
      Returned s1 /\
    toggle_normalization s1 =
      Returned (CcgState "equal"%string (Some [[[2%Q]]])
                  (_normalize "equal"%string [[[2%Q]]]) 20 41 1).
Proof.
  destruct (toggle_normalization_twice
              (CcgState "equal"%string (Some [[[2%Q]]]) None 20 41 1) [[[2%Q]]])
    as (s1 & H1 & _ & H2).
  - reflexivity.
  - left. reflexivity.
  - exists s1. split; [exact H1 | exact H2].
Defined.

Section ToggleThenSelect.

Variable correlograms : Z -> Z -> tensor.
Variable _symmetrize_correlograms : tensor -> tensor.

(** CorrelogramViewModel.toggle_normalization before any selection: it
    raises on [len(None)] after the mode has been switched, and the next
    selection renders in the switched mode. *)
Theorem toggle_without_cache_then_select (s : ccg_state) :
  ccgs s = None ->
  let m := if String.eqb (normalization s) "independent"%string then "equal"%string
           else "independent"%string in
  exists s1, toggle_normalization s = Raised s1 /\ normalization s1 = m /\
    ccgs s1 = None /\
    view_correlograms (on_select correlograms _symmetrize_correlograms s1) =
      _normalize m (_symmetrize_correlograms
                      (correlograms (binsize s) (_oddify (winsize_bins s)))).
Proof.
  intros Hc m. unfold toggle_normalization, set_normalization. rewrite Hc.
  eexists. split; [reflexivity|]. simpl. split; [reflexivity|].
  split; reflexivity.
Qed.

End ToggleThenSelect.

Lemma toggle_without_cache_then_select_witness :
  exists s1,
    toggle_normalization (CcgState "equal"%string None None 20 41 0) = Raised s1 /\
    normalization s1 = "independent"%string.
Proof.
  destruct (toggle_without_cache_then_select (fun _ _ => []) (fun c => c)
              (CcgState "equal"%string None None 20 41 0)) as (s1 & H & Hm & _).
  - reflexivity.
  - exists s1. split; [exact H | exact Hm].
Defined.

(** ** Trace view keys: proofs *)

Lemma py_int_width_one (w : Z) : py_int (inject_Z w * 1) = w.
Proof.
  rewrite (py_int_wd _ (inject_Z w)) by apply Qmult_1_r. apply py_int_inject_Z.
Qed.

Lemma py_int_neg_width_one (w : Z) : py_int (- inject_Z w * 1) = - w.
Proof.
  rewrite (py_int_wd _ (inject_Z (- w))).
  - apply py_int_inject_Z.
  - rewrite Qmult_1_r, inject_Z_opp. reflexivity.
Qed.

(** TraceViewModel.on_key_press: from a valid window, Shift+Right pages
    forward by one full window and Shift+Left back by one, stopping at
    the ends of the recording; a key press without Control or Shift
    leaves the interval as it is. *)
Theorem trace_shift_keys_page (n start end_ : Z) (key : string) (mods : list string) :
  0 <= start -> start < end_ -> end_ <= n ->
  let w := end_ - start in
  trace_on_key_press n (start, end_) ["Shift"%string] "Right"%string =
    IntervalOk (Z.min end_ (n - w)) (Z.min end_ (n - w) + w) /\
  trace_on_key_press n (start, end_) ["Shift"%string] "Left"%string =
    IntervalOk (Z.max (start - w) 0) (Z.max (start - w) 0 + w) /\
  (~ In "Control"%string mods -> ~ In "Shift"%string mods ->
   trace_on_key_press n (start, end_) mods key = IntervalOk start end_).
Proof.
  intros H0 H1 H2 w.
  assert (Hno : forall m, ~ In m mods -> existsb (String.eqb m) mods = false).
  { intros m Hm. apply not_true_is_false. intros He.
    apply existsb_exists in He as (x & Hx & Hxe).
    apply String.eqb_eq in Hxe. subst x. contradiction. }
  split; [| split].
  - unfold trace_on_key_press. simpl. unfold move.
    rewrite py_int_inject_Z, py_int_width_one. simpl. rewrite !py_int_inject_Z.
    rewrite clamp_interval_slide by lia. f_equal; lia.
  - unfold trace_on_key_press. simpl. unfold move.
    rewrite py_int_inject_Z, py_int_neg_width_one. simpl. rewrite !py_int_inject_Z.
    rewrite clamp_interval_slide by lia. f_equal; lia.
  - intros Hc Hs. unfold trace_on_key_press.
    rewrite (Hno _ Hc), (Hno _ Hs). reflexivity.
Qed.

Lemma trace_shift_keys_page_witness :
  trace_on_key_press 100 (70, 90) ["Shift"%string] "Right"%string = IntervalOk 80 100.
Proof.
  destruct (trace_shift_keys_page 100 70 90 "Right"%string [] ) as [H _]; [lia | lia | lia |].
  exact H.
Defined.

(** ** Feature arrays: proofs *)

Lemma chunks_fuel_concat {A} (k fuel : nat) (rows : list (list A)) :
  (0 < k)%nat -> Forall (fun r => length r = k) rows ->
  (length (concat rows) <= fuel)%nat ->
  chunks_fuel fuel k (concat rows) = rows.
Proof.
  intros Hk Hrows. revert fuel.
  induction Hrows as [| r rs Hr Hrs IH]; intros fuel Hf.
  - destruct fuel; reflexivity.
  - simpl concat in *. rewrite length_app in Hf.
    destruct fuel as [| fuel]; [lia|].
    destruct r as [| x r']; [simpl in Hr; lia|].
    simpl chunks_fuel. rewrite app_comm_cons.
    rewrite firstn_app, skipn_app, Hr, Nat.sub_diag.
    rewrite firstn_all2, skipn_all2 by lia.
    rewrite firstn_O, app_nil_r. f_equal. apply IH. simpl in Hf, Hr. lia.
Qed.

Lemma nth_map_chunks_fuel {A B} (g : list A -> B) (d : B) (k fuel c : nat) (l : list A) :
  (0 < k)%nat -> (length l <= fuel)%nat -> (c * k < length l)%nat ->
  nth c (map g (chunks_fuel fuel k l)) d = g (firstn k (skipn (c * k) l)).
Proof.
  intros Hk. revert l c. induction fuel as [| fuel IH]; intros l c Hf Hc; [lia|].
  destruct l as [| x l']; [simpl in Hc; lia|].
  simpl chunks_fuel. cbv iota. destruct c as [| c].
  - reflexivity.
  - simpl map. simpl nth. rewrite IH.
    + rewrite skipn_skipn. f_equal. f_equal. f_equal. lia.
    + rewrite length_skipn. simpl in Hf |- *. lia.
    + rewrite length_skipn. simpl in Hc |- *. lia.
Qed.

Lemma nth_map_lt {A B} (f : A -> B) (l : list A) (n : nat) (d : B) (d' : A) :
  (n < length l)%nat -> nth n (map f l) d = f (nth n l d').
Proof.
  intros H. rewrite (nth_indep _ d (f d')) by (rewrite length_map; exact H).
  apply map_nth.
Qed.

(** BaseFeatureViewModel._rescale_features: when every spike has at
    least [n_channels * n_fet] feature columns, the result has one
    [(n_channels, n_fet)] block per spike, whose entry [[c, f]] is column
    [c * n_fet + f] of the spike's row times [scale_factor]. *)
Theorem rescale_features_layout (n_fet n_channels : nat) (scale_factor : Q)
    (features : list (list Q)) :
  (0 < n_fet)%nat -> (0 < n_channels)%nat ->
  Forall (fun row => (n_fet * n_channels <= length row)%nat) features ->
  exists t, _rescale_features n_fet n_channels scale_factor features = Some t /\
    length t = length features /\
    forall s c f, (s < length features)%nat -> (c < n_channels)%nat -> (f < n_fet)%nat ->
      nth f (nth c (nth s t []) []) 0%Q =
      (nth (c * n_fet + f) (nth s features []) 0 * scale_factor)%Q.
Proof.
  intros Hf Hc Hrows.
  set (cell := (n_channels * n_fet)%nat).
  assert (Hcell : (0 < cell)%nat) by (unfold cell; lia).
  assert (Hlen : Forall (fun r => length r = cell)
                        (map (firstn (n_fet * n_channels)) features)).
  { apply Forall_map.
    apply (List.Forall_impl (P := fun row => (n_fet * n_channels <= length row)%nat));
      [| exact Hrows].
    intros row Hr. rewrite length_firstn. unfold cell. lia. }
  assert (Hflat : length (concat (map (firstn (n_fet * n_channels)) features))
                  = (length features * cell)%nat).
  { clear Hrows. induction features as [| row rows IH]; [reflexivity|].
    inversion Hlen as [| ? ? Hr Hrs]. simpl. rewrite length_app, Hr, IH by exact Hrs. lia. }
  assert (Hch : chunks cell (concat (map (firstn (n_fet * n_channels)) features))
                = map (firstn (n_fet * n_channels)) features).
  { unfold chunks. apply chunks_fuel_concat; [exact Hcell | exact Hlen | lia]. }
  unfold _rescale_features. fold cell. rewrite Hflat, Nat.Div0.mod_mul.
  destruct (Nat.eqb_spec cell 0) as [E | _]; [lia|]. simpl.
  eexists. split; [reflexivity|]. rewrite Hch, !length_map. split; [reflexivity|].
  intros s c f Hs Hcs Hfs.
  rewrite map_map. rewrite (nth_map_lt _ _ _ _ []) by exact Hs.
  assert (Hrow : (n_fet * n_channels <= length (nth s features []))%nat).
  { rewrite List.Forall_forall in Hrows. apply Hrows, nth_In, Hs. }
  set (row := firstn (n_fet * n_channels) (nth s features [])).
  assert (Hrl : length row = (n_fet * n_channels)%nat)
    by (unfold row; rewrite length_firstn; lia).
  unfold chunks. rewrite (nth_map_chunks_fuel _ _ n_fet); [| exact Hf | lia | nia].
  rewrite (nth_map_lt _ _ _ _ 0%Q).
  2: { rewrite length_firstn, length_skipn. nia. }
  rewrite nth_firstn. destruct (Nat.ltb_spec f n_fet) as [_ | E]; [| lia].
  rewrite nth_skipn. unfold row. rewrite nth_firstn.
  destruct (Nat.ltb_spec (c * n_fet + f) (n_fet * n_channels)) as [_ | E]; [| nia].
  reflexivity.
Qed.

Lemma rescale_features_layout_witness :
  exists t, _rescale_features 2 2 3 [[1; 2; 5; 7; 9]]%Q = Some t /\
    nth 1 (nth 1 (nth 0 t []) []) 0%Q = (7 * 3)%Q.
Proof.
  destruct (rescale_features_layout 2 2 3 [[1; 2; 5; 7; 9]]%Q) as (t & H & _ & Hn).
  - lia.
  - lia.
  - repeat constructor; simpl; lia.
  - exists t. split; [exact H|]. apply (Hn 0 1 1)%nat; simpl; lia.
Defined.
